(** * Statue_Puzzle: the movement and orientation core

    A shallow embedding of [src/moving_puzzle_objects.py] (classes
    [Direction], [Turn], [Movable], [Player]) and the properties of the
    specification checked against it.

    Python integers are unbounded, so coordinates are [Z].  Methods that
    mutate [self] run in a small state-and-error monad over the instance's
    fields: an exception leaves the fields as they were when it was raised. *)

From Stdlib Require Import String ZArith List Bool Lia.
Import ListNotations.
Local Open Scope Z_scope.

Set Implicit Arguments.

(** ** Exceptions and results *)

Inductive exn := AttributeError | TypeError | IndexError.

Inductive result (A : Type) :=
| Ok (a : A)
| Err (e : exn).
Arguments Ok {A} a.
Arguments Err {A} e.

Definition rbind {A B} (r : result A) (k : A -> result B) : result B :=
  match r with
  | Ok a => k a
  | Err e => Err e
  end.

Definition raised {A} (e : exn) (r : result A) : bool :=
  match r, e with
  | Err AttributeError, AttributeError => true
  | Err TypeError, TypeError => true
  | Err IndexError, IndexError => true
  | _, _ => false
  end.

(** ** Sequences: [len] and subscripting

    [l[i]] on a Python list or tuple: an index in [[-len, len)] selects an
    element (negative ones count from the end), any other raises IndexError. *)

Definition len {A} (l : list A) : Z := Z.of_nat (List.length l).

Definition getitem {A} (l : list A) (i : Z) : result A :=
  let j := if i <? 0 then i + len l else i in
  if (0 <=? j) && (j <? len l) then
    match nth_error l (Z.to_nat j) with
    | Some a => Ok a
    | None => Err IndexError
    end
  else Err IndexError.

(** ** class Direction(Enum) *)

Module Direction.

Inductive t := UP | DOWN | LEFT | RIGHT.

(** The member's [value]: the tuple on the right-hand side of its
    assignment in the class body, as (dx, dy). *)
Definition value (d : t) : Z * Z :=
  match d with
  | UP => (0, -1)
  | DOWN => (0, 1)
  | LEFT => (-1, 0)
  | RIGHT => (1, 0)
  end.

Definition eqb (a b : t) : bool :=
  match a, b with
  | UP, UP | DOWN, DOWN | LEFT, LEFT | RIGHT, RIGHT => true
  | _, _ => false
  end.

(** The direction whose vector is the negated one. *)
Definition opposite (d : t) : t :=
  match d with
  | UP => DOWN
  | DOWN => UP
  | LEFT => RIGHT
  | RIGHT => LEFT
  end.

End Direction.

(** ** The objects the module computes with *)

(** A tuple and a list of the same items are different Python values. *)
Inductive seq_kind := PyTuple | PyList.

(** The two lambda expressions of the body of [class Turn]. *)
Inductive lambda :=
| lambda_RIGHT   (* lambda dir: (-dir[1], -dir[0]) *)
| lambda_LEFT.   (* lambda dir: (dir[1], dir[0]) *)

Inductive pyobj :=
| Ints (k : seq_kind) (xs : list Z)   (* a tuple or a list of ints *)
| Member (d : Direction.t)            (* a member of Direction *)
| Function (f : lambda).              (* a plain function object *)

Definition pair_obj (k : seq_kind) (v : Z * Z) : pyobj :=
  Ints k [fst v; snd v].

(** [o[i]]: tuples and lists are subscriptable; an Enum member and a
    function are not (TypeError). *)
Definition subscript (o : pyobj) (i : Z) : result Z :=
  match o with
  | Ints _ xs => getitem xs i
  | Member _ => Err TypeError
  | Function _ => Err TypeError
  end.

(** [o.value]: only Enum members have it. *)
Definition getattr_value (o : pyobj) : result (Z * Z) :=
  match o with
  | Member d => Ok (Direction.value d)
  | Ints _ _ => Err AttributeError
  | Function _ => Err AttributeError
  end.

(** Calling one of the two lambdas on an argument; the tuple display
    evaluates its items left to right. *)
Definition call (f : lambda) (dir : pyobj) : result pyobj :=
  match f with
  | lambda_RIGHT =>
      rbind (subscript dir 1) (fun a =>
      rbind (subscript dir 0) (fun b =>
      Ok (Ints PyTuple [- a; - b])))
  | lambda_LEFT =>
      rbind (subscript dir 1) (fun a =>
      rbind (subscript dir 0) (fun b =>
      Ok (Ints PyTuple [a; b])))
  end.

(** ** class Turn(Enum)

    The Enum machinery makes a member of every name the class body binds to
    a value that is not a descriptor; a value with [__get__] (every function,
    so every lambda) stays an ordinary class attribute. *)

Definition class_body := list (string * pyobj).

Definition is_descriptor (o : pyobj) : bool :=
  match o with
  | Function _ => true
  | Ints _ _ => false
  | Member _ => false
  end.

Definition enum_member_names (body : class_body) : list string :=
  map fst (filter (fun e => negb (is_descriptor (snd e))) body).

Definition class_getattr (body : class_body) (name : string) : option pyobj :=
  match find (fun e => String.eqb (fst e) name) body with
  | Some e => Some (snd e)
  | None => None
  end.

Definition Direction_body : class_body :=
  [ ("UP"%string, pair_obj PyTuple (0, -1));
    ("DOWN"%string, pair_obj PyTuple (0, 1));
    ("LEFT"%string, pair_obj PyTuple (-1, 0));
    ("RIGHT"%string, pair_obj PyTuple (1, 0)) ].

Definition Turn_body : class_body :=
  [ ("RIGHT"%string, Function lambda_RIGHT);
    ("LEFT"%string, Function lambda_LEFT) ].

Module Turn.

(** What the expressions [Turn.RIGHT] and [Turn.LEFT] evaluate to. *)
Definition RIGHT : pyobj := Function lambda_RIGHT.
Definition LEFT : pyobj := Function lambda_LEFT.

End Turn.

(** The argument of [Movable.turn].  Python does not enforce the annotation
    [turn: Turn]: the method looks [get_new_dir] up on whatever it is given.
    [Plain o] is one of the objects above, none of which has that attribute;
    [WithGetNewDir g] stands for any object that has it, bound to a callable
    behaving as [g] (what [Turn.__init__] would set on a member). *)
Inductive rotation :=
| Plain (o : pyobj)
| WithGetNewDir (g : pyobj -> result pyobj).

Definition getattr_get_new_dir (t : rotation) : result (pyobj -> result pyobj) :=
  match t with
  | Plain _ => Err AttributeError
  | WithGetNewDir g => Ok g
  end.

(** ** class Movable *)

(** A position: the two coordinates (x, y) and the kind of sequence that
    holds them. *)
Record coords := { kind : seq_kind; cx : Z; cy : Z }.

Record Movable := {
  start_pos : coords;
  start_dir : pyobj;
  pos : coords;
  dir : pyobj
}.

Definition set_pos (p : coords) (m : Movable) : Movable :=
  {| start_pos := start_pos m; start_dir := start_dir m;
     pos := p; dir := dir m |}.

Definition set_dir (d : pyobj) (m : Movable) : Movable :=
  {| start_pos := start_pos m; start_dir := start_dir m;
     pos := pos m; dir := d |}.

(** [Movable.__init__(pos, dir)], with arguments as annotated:
    [pos: tuple[int, int]], [dir: Direction]. *)
Definition new (p : Z * Z) (d : Direction.t) : Movable :=
  let p0 := {| kind := PyTuple; cx := fst p; cy := snd p |} in
  {| start_pos := p0; start_dir := Member d; pos := p0; dir := Member d |}.

(** *** The monad of method bodies *)

Definition M (A : Type) := Movable -> result A * Movable.

Definition ret {A} (a : A) : M A := fun s => (Ok a, s).

Definition bind {A B} (c : M A) (k : A -> M B) : M B :=
  fun s =>
    match c s with
    | (Ok a, s') => k a s'
    | (Err e, s') => (Err e, s')
    end.

Definition lift {A} (r : result A) : M A := fun s => (r, s).

Definition read {A} (f : Movable -> A) : M A := fun s => (Ok (f s), s).

Definition modify (f : Movable -> Movable) : M unit := fun s => (Ok tt, f s).

Notation "x <- c ;; k" := (bind c (fun x => k))
  (at level 61, c at next level, right associativity).
Notation "c ;;; k" := (bind c (fun _ => k))
  (at level 61, right associativity).

(** *** turn

    [self.__dir = turn.get_new_dir(self.__dir)]: the attribute lookup, then
    the argument, then the call, and the assignment last. *)
Definition turn (t : rotation) : M unit :=
  g <- lift (getattr_get_new_dir t) ;;
  d <- read dir ;;
  v <- lift (g d) ;;
  modify (set_dir v).

(** *** move

    [new_coords] is a list of the two sums; the condition is a conjunction
    of two chained comparisons, evaluated left to right with short circuit,
    so [grid[new_coords[1]]] is evaluated only after the first one held. *)
Definition move {cell : Type} (grid : list (list cell)) : M unit :=
  p <- read pos ;;
  d <- read dir ;;
  v <- lift (getattr_value d) ;;
  let new_coords :=
    {| kind := PyList; cx := cx p + fst v; cy := cy p + snd v |} in
  if (0 <=? cy new_coords) && (cy new_coords <? len grid) then
    row <- lift (getitem grid (cy new_coords)) ;;
    if (0 <=? cx new_coords) && (cx new_coords <? len row) then
      modify (set_pos new_coords)
    else ret tt
  else ret tt.

(** *** reset *)
Definition reset : M unit :=
  p <- read start_pos ;;
  modify (set_pos p) ;;;
  d <- read start_dir ;;
  modify (set_dir d).

(** ** Sequences of method calls

    A caller's program is a sequence of calls on one instance.  [run] gives
    the fields after the whole sequence when the caller catches whatever a
    call raises; the fields at the moment an uncaught exception propagates
    are those after the prefix that ends with the raising call, so every
    state a caller can observe is [run] of some sequence. *)

Section Calls.

Variable cell : Type.

Inductive method_call :=
| call_turn (t : rotation)
| call_move (grid : list (list cell))
| call_reset.

Definition exec (c : method_call) : M unit :=
  match c with
  | call_turn t => turn t
  | call_move grid => move grid
  | call_reset => reset
  end.

Fixpoint run (cs : list method_call) (m : Movable) : Movable :=
  match cs with
  | [] => m
  | c :: cs' => run cs' (snd (exec c m))
  end.

(** The outcomes of the calls, in order. *)
Fixpoint outcomes (cs : list method_call) (m : Movable) : list (result unit) :=
  match cs with
  | [] => []
  | c :: cs' => fst (exec c m) :: outcomes cs' (snd (exec c m))
  end.

End Calls.

Arguments call_reset {cell}.
Arguments call_turn {cell} t.

(** ** class Player(Movable)

    The subclass defines [__init__] only, which passes its arguments to
    [super().__init__]; every other method is found in [Movable] by the
    method resolution order.  The name-mangled fields ([_Movable__pos], ...)
    are written by [Movable]'s methods alone. *)

Inductive class := class_Movable | class_Player.

Inductive method_name := name_init | name_turn | name_move | name_reset.

Definition defines (c : class) (f : method_name) : bool :=
  match c, f with
  | class_Movable, _ => true
  | class_Player, name_init => true
  | class_Player, _ => false
  end.

Definition mro (c : class) : list class :=
  match c with
  | class_Movable => [class_Movable]
  | class_Player => [class_Player; class_Movable]
  end.

Definition resolve (c : class) (f : method_name) : option class :=
  find (fun k => defines k f) (mro c).

Record instance := { class_of : class; fields : Movable }.

(** [__init__] of each class. *)
Definition init (c : class) (p : Z * Z) (d : Direction.t) : Movable :=
  match c with
  | class_Movable => new p d
  | class_Player => new p d   (* super().__init__(pos, dir) *)
  end.

Definition construct (c : class) (p : Z * Z) (d : Direction.t) : instance :=
  {| class_of := c; fields := init c p d |}.

Definition name_of {cell} (c : method_call cell) : method_name :=
  match c with
  | call_turn _ => name_turn
  | call_move _ => name_move
  | call_reset => name_reset
  end.

(** The body a class gives for a call, if it defines one. *)
Definition body_of {cell} (k : class) (c : method_call cell) : option (M unit) :=
  match k with
  | class_Movable => Some (exec c)
  | class_Player => None
  end.

(** A call on an instance runs the body of the first class along the MRO
    that defines the name (AttributeError when none does). *)
Definition invoke {cell} (c : method_call cell) (o : instance)
  : result unit * instance :=
  match resolve (class_of o) (name_of c) with
  | Some k =>
      match body_of k c with
      | Some body =>
          let r := body (fields o) in
          (fst r, {| class_of := class_of o; fields := snd r |})
      | None => (Err AttributeError, o)
      end
  | None => (Err AttributeError, o)
  end.

Fixpoint invoke_all {cell} (cs : list (method_call cell)) (o : instance)
  : list (result unit) * instance :=
  match cs with
  | [] => ([], o)
  | c :: cs' =>
      let r := invoke c o in
      let rest := invoke_all cs' (snd r) in
      (fst r :: fst rest, snd rest)
  end.

(** ** Vocabulary of the statements *)

(** The cell one step ahead of a Movable that faces [d]. *)
Definition candidate (m : Movable) (d : Direction.t) : coords :=
  {| kind := PyList;
     cx := cx (pos m) + fst (Direction.value d);
     cy := cy (pos m) + snd (Direction.value d) |}.

(** Row index within [0, num_rows) and column index within
    [0, length of that row). *)
Definition in_bounds {cell} (grid : list (list cell)) (c : coords) : Prop :=
  0 <= cy c < len grid /\
  exists row, nth_error grid (Z.to_nat (cy c)) = Some row /\
              0 <= cx c < len row.

(** The shape of a grid: the lengths of its rows, in order. *)
Definition shape {cell} (grid : list (list cell)) : list nat :=
  map (@List.length cell) grid.

(** The Movables whose direction field holds a member of Direction. *)
Definition faces (m : Movable) (d : Direction.t) : Prop := dir m = Member d.

(** The arguments the module itself offers for [turn]. *)
Definition offered (t : rotation) : Prop :=
  t = Plain Turn.RIGHT \/ t = Plain Turn.LEFT.

(** What move does once the direction's vector is known, as a function of
    the candidate [c]. *)
Definition move_result {cell} (grid : list (list cell)) (m : Movable)
  (c : coords) : result unit * Movable :=
  if (0 <=? cy c) && (cy c <? len grid) then
    match getitem grid (cy c) with
    | Ok row =>
        if (0 <=? cx c) && (cx c <? len row) then (Ok tt, set_pos c m)
        else (Ok tt, m)
    | Err e => (Err e, m)
    end
  else (Ok tt, m).

(** ** Vocabulary of the further properties *)

(** City-block distance between two positions. *)
Definition manhattan (a b : coords) : Z :=
  Z.abs (cx a - cx b) + Z.abs (cy a - cy b).

Definition dot (u v : Z * Z) : Z := fst u * fst v + snd u * snd v.

(** Every move of the sequence is given the grid [g]. *)
Definition moves_on {cell} (g : list (list cell))
  (cs : list (method_call cell)) : Prop :=
  Forall (fun c => forall g', c = call_move g' -> g' = g) cs.

(** Every turn of the sequence is given [Turn.RIGHT] or [Turn.LEFT]. *)
Definition turns_offered {cell} (cs : list (method_call cell)) : Prop :=
  Forall (fun c => forall t, c = call_turn t -> offered t) cs.

Definition is_move {cell} (c : method_call cell) : bool :=
  match c with
  | call_move _ => true
  | call_turn _ => false
  | call_reset => false
  end.

Definition count_moves {cell} (cs : list (method_call cell)) : Z :=
  len (filter is_move cs).

(** What each call of a sequence does when the direction field holds a
    member of Direction and the turns are the offered ones. *)
Definition expected_outcome {cell} (c : method_call cell) : result unit :=
  match c with
  | call_turn _ => Err AttributeError
  | call_move _ => Ok tt
  | call_reset => Ok tt
  end.

(** No call of the sequence is a reset. *)
Definition no_reset {cell} (cs : list (method_call cell)) : Prop :=
  Forall (fun c => c <> call_reset) cs.

(** A grid of [h] rows, each of length [w]. *)
Definition rectangular {cell} (w h : Z) (g : list (list cell)) : Prop :=
  len g = h /\ Forall (fun row => len row = w) g.

Definition clamp (lo hi z : Z) : Z := Z.max lo (Z.min hi z).

(** The invariant of a run with the offered turns: the direction is the
    construction one and the position is [k] steps along it from the start. *)
Definition along (d : Direction.t) (k : Z) (m : Movable) : Prop :=
  faces m d /\ start_dir m = Member d /\
  cx (pos m) = cx (start_pos m) + k * fst (Direction.value d) /\
  cy (pos m) = cy (start_pos m) + k * snd (Direction.value d).

(** * Properties *)

(** ** The Enum classes as Python builds them *)

Lemma Direction_has_four_members :
  enum_member_names Direction_body
  = ["UP"%string; "DOWN"%string; "LEFT"%string; "RIGHT"%string].
Proof. reflexivity. Qed.

Lemma Turn_has_no_members : enum_member_names Turn_body = [].
Proof. reflexivity. Qed.

Lemma Turn_attributes_are_functions :
  class_getattr Turn_body "RIGHT" = Some Turn.RIGHT /\
  class_getattr Turn_body "LEFT" = Some Turn.LEFT.
Proof. split; reflexivity. Qed.

Lemma Direction_value_matches_body (d : Direction.t) :
  In (pair_obj PyTuple (Direction.value d)) (map snd Direction_body).
Proof. destruct d; simpl; tauto. Qed.

(** ** Subscripting *)

Lemma len_nonneg {A} (l : list A) : 0 <= len l.
Proof. unfold len; lia. Qed.

Lemma getitem_in_range {A} (l : list A) (i : Z) :
  0 <= i < len l ->
  exists a, getitem l i = Ok a /\ nth_error l (Z.to_nat i) = Some a.
Proof.
  intros Hi. unfold getitem.
  replace (i <? 0) with false by (symmetry; apply Z.ltb_ge; lia).
  replace (0 <=? i) with true by (symmetry; apply Z.leb_le; lia).
  replace (i <? len l) with true by (symmetry; apply Z.ltb_lt; lia).
  simpl.
  destruct (nth_error l (Z.to_nat i)) as [a|] eqn:E.
  - exists a; split; reflexivity.
  - apply nth_error_None in E. unfold len in Hi. lia.
Qed.

Lemma nth_error_shape {cell} (g : list (list cell)) (n : nat) :
  nth_error (shape g) n = option_map (@List.length cell) (nth_error g n).
Proof. unfold shape. apply nth_error_map. Qed.

Lemma len_shape {cell} (g : list (list cell)) : len (shape g) = len g.
Proof. unfold len, shape. now rewrite length_map. Qed.

(** ** The body of move, for a Movable that faces a direction *)

Lemma move_facing {cell} (grid : list (list cell)) (m : Movable)
  (d : Direction.t) :
  faces m d -> move grid m = move_result grid m (candidate m d).
Proof.
  unfold faces, move, move_result, candidate, bind, read, lift, modify, ret.
  intros ->. simpl.
  destruct ((0 <=? _) && (_ <? len grid)); [|reflexivity].
  destruct (getitem grid _) as [row|e]; [|reflexivity].
  destruct ((0 <=? _) && (_ <? len row)); reflexivity.
Qed.

Lemma move_not_facing {cell} (grid : list (list cell)) (m : Movable) :
  (forall d, dir m <> Member d) -> move grid m = (Err AttributeError, m).
Proof.
  unfold move, bind, read, lift. intros H.
  destruct (dir m) as [k xs|d|f] eqn:E; simpl; try reflexivity.
  now destruct (H d).
Qed.

Lemma move_result_in_bounds {cell} (grid : list (list cell)) m c :
  in_bounds grid c -> move_result grid m c = (Ok tt, set_pos c m).
Proof.
  intros [Hy (row & Hrow & Hx)]. unfold move_result.
  replace ((0 <=? cy c) && (cy c <? len grid)) with true
    by (symmetry; apply andb_true_iff; split;
        [apply Z.leb_le|apply Z.ltb_lt]; lia).
  destruct (getitem_in_range grid Hy) as (row' & -> & Hn).
  rewrite Hrow in Hn. injection Hn as <-.
  replace ((0 <=? cx c) && (cx c <? len row)) with true
    by (symmetry; apply andb_true_iff; split;
        [apply Z.leb_le|apply Z.ltb_lt]; lia).
  reflexivity.
Qed.

Lemma move_result_out_of_bounds {cell} (grid : list (list cell)) m c :
  ~ in_bounds grid c -> move_result grid m c = (Ok tt, m).
Proof.
  intros Hn. unfold move_result.
  destruct ((0 <=? cy c) && (cy c <? len grid)) eqn:Ey; [|reflexivity].
  apply andb_true_iff in Ey. destruct Ey as [E1 E2].
  apply Z.leb_le in E1. apply Z.ltb_lt in E2.
  destruct (getitem_in_range grid (conj E1 E2)) as (row & -> & Hrow).
  destruct ((0 <=? cx c) && (cx c <? len row)) eqn:Ex; [|reflexivity].
  apply andb_true_iff in Ex. destruct Ex as [E3 E4].
  apply Z.leb_le in E3. apply Z.ltb_lt in E4.
  exfalso. apply Hn. split; [lia|]. exists row. split; [exact Hrow|lia].
Qed.

(** The result of move is a function of the shape of the grid. *)
Lemma move_result_shape {c1 c2} (g1 : list (list c1)) (g2 : list (list c2))
  m c :
  shape g1 = shape g2 -> move_result g1 m c = move_result g2 m c.
Proof.
  intros Hs. unfold move_result.
  assert (Hl : len g1 = len g2) by (rewrite <- (len_shape g1), Hs; apply len_shape).
  rewrite Hl.
  destruct ((0 <=? cy c) && (cy c <? len g2)) eqn:Ey; [|reflexivity].
  apply andb_true_iff in Ey. destruct Ey as [E1 E2].
  apply Z.leb_le in E1. apply Z.ltb_lt in E2.
  assert (H1 : 0 <= cy c < len g1) by lia.
  destruct (getitem_in_range g1 H1) as (r1 & -> & Hr1).
  destruct (getitem_in_range g2 (conj E1 E2)) as (r2 & -> & Hr2).
  assert (Hlen : List.length r1 = List.length r2).
  { pose proof (nth_error_shape g1 (Z.to_nat (cy c))) as A1.
    pose proof (nth_error_shape g2 (Z.to_nat (cy c))) as A2.
    rewrite Hr1 in A1. rewrite Hr2 in A2. rewrite Hs in A1.
    rewrite A1 in A2. simpl in A2. now injection A2. }
  unfold len. rewrite Hlen. reflexivity.
Qed.

(** ** Claims about move *)

(** C1: move computes the candidate position + direction vector; when the
    candidate's row index is within [0, num_rows) and its column index is
    within [0, length of that row) the call returns normally with the
    position field holding the candidate and every other field as before,
    otherwise it returns normally with every field unchanged.  On any 3x3
    grid a Movable at (1,1) facing RIGHT ends at (2,1); on any grid whose
    row 0 has length 2 and row 1 has length 5, a step up from (x,1) ends at
    (x,0) exactly when 0 <= x < 2 and stays at (x,1) otherwise. *)
Theorem move_bounds_checked (cell : Type) (grid : list (list cell))
  (m : Movable) (d : Direction.t) :
  faces m d ->
  (in_bounds grid (candidate m d) ->
     move grid m
     = (Ok tt, {| start_pos := start_pos m; start_dir := start_dir m;
                  pos := {| kind := PyList;
                            cx := cx (pos m) + fst (Direction.value d);
                            cy := cy (pos m) + snd (Direction.value d) |};
                  dir := dir m |})) /\
  (~ in_bounds grid (candidate m d) -> move grid m = (Ok tt, m)) /\
  (forall g : list (list cell), shape g = [3; 3; 3]%nat ->
     move g (new (1, 1) Direction.RIGHT)
     = (Ok tt, {| start_pos := {| kind := PyTuple; cx := 1; cy := 1 |};
                  start_dir := Member Direction.RIGHT;
                  pos := {| kind := PyList; cx := 2; cy := 1 |};
                  dir := Member Direction.RIGHT |})) /\
  (forall (g : list (list cell)) (x : Z), shape g = [2; 5]%nat ->
     move g (new (x, 1) Direction.UP)
     = (Ok tt, {| start_pos := {| kind := PyTuple; cx := x; cy := 1 |};
                  start_dir := Member Direction.UP;
                  pos := if (0 <=? x) && (x <? 2)
                         then {| kind := PyList; cx := x; cy := 0 |}
                         else {| kind := PyTuple; cx := x; cy := 1 |};
                  dir := Member Direction.UP |})).
Proof.
  intros Hd. rewrite (move_facing grid Hd).
  split; [intros Hin; now rewrite (move_result_in_bounds m Hin)|].
  split; [apply move_result_out_of_bounds|].
  split.
  - intros g Hg.
    rewrite (@move_facing _ g (new (1, 1) Direction.RIGHT)
               Direction.RIGHT eq_refl).
    rewrite (@move_result_shape _ unit g
               (repeat (repeat tt 3%nat) 3%nat) _ _ Hg).
    reflexivity.
  - intros g x Hg.
    rewrite (@move_facing _ g (new (x, 1) Direction.UP)
               Direction.UP eq_refl).
    rewrite (@move_result_shape _ unit g
               [repeat tt 2%nat; repeat tt 5%nat] _ _ Hg).
    unfold move_result, candidate, new. cbn -[Z.leb Z.ltb Z.add].
    replace (1 + -1) with 0 by lia.
    replace (x + 0) with x by lia.
    cbn. destruct ((0 <=? x) && _); reflexivity.
Qed.

Lemma move_bounds_checked_witness :
  faces (new (1, 1) Direction.UP) Direction.UP /\
  move [[tt; tt]; [tt; tt; tt; tt; tt]] (new (1, 1) Direction.UP)
  = (Ok tt, {| start_pos := {| kind := PyTuple; cx := 1; cy := 1 |};
               start_dir := Member Direction.UP;
               pos := {| kind := PyList; cx := 1; cy := 0 |};
               dir := Member Direction.UP |}).
Proof.
  split; [reflexivity|].
  refine (proj1 (@move_bounds_checked unit [[tt; tt]; [tt; tt; tt; tt; tt]]
                   (new (1, 1) Direction.UP) Direction.UP eq_refl) _).
  split; [cbn; lia|].
  exists [tt; tt]. split; [reflexivity|cbn; lia].
Defined.

Lemma move_shape_invariant (c1 c2 : Type) (g1 : list (list c1))
  (g2 : list (list c2)) (m : Movable) :
  shape g1 = shape g2 -> move g1 m = move g2 m.
Proof.
  intros Hs.
  destruct (dir m) as [k xs|d|f] eqn:E.
  - rewrite !move_not_facing; congruence.
  - rewrite (move_facing g1 E), (move_facing g2 E).
    now apply move_result_shape.
  - rewrite !move_not_facing; congruence.
Qed.

(** C7: the outcome of move depends on the shape of the grid only: two
    grids with the same number of rows and the same length for every row
    (whatever their cells, even of different types) give the same result
    and the same fields, for every Movable. *)
Theorem move_depends_on_shape_only (c1 c2 : Type) (g1 : list (list c1))
  (g2 : list (list c2)) (m : Movable) :
  shape g1 = shape g2 -> move g1 m = move g2 m.
Proof. apply move_shape_invariant. Qed.

Lemma move_depends_on_shape_only_witness :
  shape [[true; false]; [false]] = shape [[7%nat; 8%nat]; [9%nat]] /\
  move [[true; false]; [false]] (new (0, 1) Direction.UP)
  = move [[7%nat; 8%nat]; [9%nat]] (new (0, 1) Direction.UP).
Proof.
  split; [reflexivity|].
  apply (@move_depends_on_shape_only bool nat
           [[true; false]; [false]] [[7%nat; 8%nat]; [9%nat]]
           (new (0, 1) Direction.UP)).
  reflexivity.
Defined.

(** C9: move never raises IndexError, for any fields and any grid: the row
    is subscripted only after the row bound held.  On the empty grid, and
    when the candidate's row index is negative, the call returns normally
    with the fields unchanged (the negative index does not wrap around to a
    row counted from the end). *)
Theorem move_never_raises_IndexError (cell : Type) (grid : list (list cell))
  (m : Movable) :
  raised IndexError (fst (move grid m)) = false /\
  (forall d, faces m d -> move (@nil (list cell)) m = (Ok tt, m)) /\
  (forall d, faces m d -> cy (candidate m d) < 0 -> move grid m = (Ok tt, m)).
Proof.
  split; [|split].
  - destruct (dir m) as [k xs|d|f] eqn:E.
    + rewrite move_not_facing by congruence. reflexivity.
    + rewrite (move_facing grid E). unfold move_result.
      destruct ((0 <=? _) && (_ <? len grid)) eqn:Ey; [|reflexivity].
      apply andb_true_iff in Ey. destruct Ey as [E1 E2].
      apply Z.leb_le in E1. apply Z.ltb_lt in E2.
      destruct (getitem_in_range grid (conj E1 E2)) as (row & -> & _).
      destruct ((0 <=? _) && (_ <? len row)); reflexivity.
    + rewrite move_not_facing by congruence. reflexivity.
  - intros d Hd. rewrite (move_facing nil Hd).
    apply move_result_out_of_bounds.
    intros [Hy _]. unfold len in Hy. simpl in Hy. lia.
  - intros d Hd Hneg. rewrite (move_facing grid Hd).
    apply move_result_out_of_bounds.
    intros [Hy _]. lia.
Qed.

(** ** Claims about turn *)

Lemma turn_plain (o : pyobj) (m : Movable) :
  turn (Plain o) m = (Err AttributeError, m).
Proof. reflexivity. Qed.

Lemma turn_with_get_new_dir (g : pyobj -> result pyobj) (m : Movable) :
  turn (WithGetNewDir g) m
  = match g (dir m) with
    | Ok v => (Ok tt, set_dir v m)
    | Err e => (Err e, m)
    end.
Proof.
  unfold turn, bind, lift, read, modify. simpl.
  destruct (g (dir m)); reflexivity.
Qed.

(** Even an object that did carry one of the two lambdas as [get_new_dir]
    could not turn a Movable: the lambda subscripts the Enum member. *)
Lemma turn_lambda_on_member (f : lambda) (m : Movable) (d : Direction.t) :
  faces m d -> turn (WithGetNewDir (call f)) m = (Err TypeError, m).
Proof.
  unfold faces. intros Hd. rewrite turn_with_get_new_dir, Hd.
  destruct f; reflexivity.
Qed.

(** C2 (evaluation of the code): with either attribute of Turn as its
    argument, turn raises AttributeError and changes no field; the claim
    says it always succeeds and replaces the direction. *)
Theorem turn_raises_AttributeError (m : Movable) :
  turn (Plain Turn.RIGHT) m = (Err AttributeError, m) /\
  turn (Plain Turn.LEFT) m = (Err AttributeError, m).
Proof. split; apply turn_plain. Qed.

(** C10: turn is atomic on error: whenever the call raises, whatever its
    argument, the fields are those before the call. *)
Theorem turn_atomic_on_error (t : rotation) (m m' : Movable) (e : exn) :
  turn t m = (Err e, m') -> m' = m.
Proof.
  destruct t as [o|g].
  - rewrite turn_plain. congruence.
  - rewrite turn_with_get_new_dir.
    destruct (g (dir m)); congruence.
Qed.

Lemma turn_atomic_on_error_witness :
  turn (Plain Turn.RIGHT) (new (0, 0) Direction.RIGHT)
  = (Err AttributeError, new (0, 0) Direction.RIGHT) /\
  new (0, 0) Direction.RIGHT = new (0, 0) Direction.RIGHT.
Proof.
  split; [reflexivity|].
  apply (@turn_atomic_on_error (Plain Turn.RIGHT)
           (new (0, 0) Direction.RIGHT) (new (0, 0) Direction.RIGHT)
           AttributeError).
  reflexivity.
Defined.

(** C5 (evaluation of the code): from (0,0) facing RIGHT, turn(Turn.RIGHT)
    raises AttributeError and leaves the direction RIGHT; the move that
    follows on a 3x3 grid steps to x = 1, y = 0.  The claim says direction
    DOWN and position (0,1). *)
Theorem turn_right_then_move (cell : Type) (g : list (list cell)) :
  shape g = [3; 3; 3]%nat ->
  outcomes [call_turn (Plain Turn.RIGHT); call_move g]
           (new (0, 0) Direction.RIGHT)
  = [Err AttributeError; Ok tt] /\
  dir (run [call_turn (Plain Turn.RIGHT); call_move g]
           (new (0, 0) Direction.RIGHT)) = Member Direction.RIGHT /\
  pos (run [call_turn (Plain Turn.RIGHT); call_move g]
           (new (0, 0) Direction.RIGHT))
  = {| kind := PyList; cx := 1; cy := 0 |}.
Proof.
  intros Hg. simpl.
  rewrite (@move_shape_invariant cell unit g
             (repeat (repeat tt 3%nat) 3%nat) _ Hg).
  repeat split.
Qed.

Lemma turn_right_then_move_witness :
  shape [[1; 2; 3]; [4; 5; 6]; [7; 8; 9]] = [3; 3; 3]%nat /\
  pos (run [call_turn (Plain Turn.RIGHT);
            call_move [[1; 2; 3]; [4; 5; 6]; [7; 8; 9]]]
           (new (0, 0) Direction.RIGHT))
  = {| kind := PyList; cx := 1; cy := 0 |}.
Proof.
  split; [reflexivity|].
  exact (proj2 (proj2 (@turn_right_then_move Z
                         [[1; 2; 3]; [4; 5; 6]; [7; 8; 9]] eq_refl))).
Defined.

(** ** The two lambdas of Turn on direction vectors *)

Lemma call_on_pair (f : lambda) (k : seq_kind) (a b : Z) :
  call f (Ints k [a; b])
  = Ok (match f with
        | lambda_RIGHT => Ints PyTuple [- b; - a]
        | lambda_LEFT => Ints PyTuple [b; a]
        end).
Proof. destruct f; reflexivity. Qed.

(** Each lambda is its own inverse on pairs, so four applications of one
    give the pair back. *)
Lemma lambda_involutive (f : lambda) (k : seq_kind) (a b : Z) :
  rbind (call f (Ints k [a; b])) (call f) = Ok (Ints PyTuple [a; b]).
Proof.
  rewrite call_on_pair. destruct f; simpl; rewrite ?Z.opp_involutive;
    reflexivity.
Qed.

(** C3 (evaluation of the code): on the vector of every direction d, the
    lambda LEFT followed by the lambda RIGHT, and RIGHT followed by LEFT,
    give the vector of the direction opposite to d, which is not d; the
    claim says they give d back. *)
Theorem left_then_right_reverses (d : Direction.t) :
  rbind (call lambda_LEFT (pair_obj PyTuple (Direction.value d)))
        (call lambda_RIGHT)
  = Ok (pair_obj PyTuple (Direction.value (Direction.opposite d))) /\
  rbind (call lambda_RIGHT (pair_obj PyTuple (Direction.value d)))
        (call lambda_LEFT)
  = Ok (pair_obj PyTuple (Direction.value (Direction.opposite d))) /\
  Direction.eqb (Direction.opposite d) d = false /\
  turn (Plain Turn.LEFT) (new (0, 0) d) = (Err AttributeError, new (0, 0) d).
Proof. destruct d; repeat split. Qed.

(** ** Frame conditions and reset *)

Lemma exec_preserves_start {cell} (c : method_call cell) (m : Movable) :
  start_pos (snd (exec c m)) = start_pos m /\
  start_dir (snd (exec c m)) = start_dir m.
Proof.
  destruct c as [t|grid|]; simpl.
  - destruct t as [o|g].
    + rewrite turn_plain. split; reflexivity.
    + rewrite turn_with_get_new_dir.
      destruct (g (dir m)); split; reflexivity.
  - destruct (dir m) as [k xs|d|f] eqn:E.
    + rewrite move_not_facing by congruence. split; reflexivity.
    + rewrite (move_facing grid E). unfold move_result.
      destruct ((0 <=? _) && (_ <? len grid)); [|split; reflexivity].
      destruct (getitem grid _) as [row|e]; [|split; reflexivity].
      destruct ((0 <=? _) && (_ <? len row)); split; reflexivity.
    + rewrite move_not_facing by congruence. split; reflexivity.
  - split; reflexivity.
Qed.

Lemma run_preserves_start {cell} (cs : list (method_call cell))
  (m : Movable) :
  start_pos (run cs m) = start_pos m /\ start_dir (run cs m) = start_dir m.
Proof.
  revert m. induction cs as [|c cs IH]; intros m; simpl.
  - split; reflexivity.
  - destruct (IH (snd (exec c m))) as [H1 H2].
    destruct (exec_preserves_start c m) as [H3 H4].
    split; congruence.
Qed.

Lemma move_preserves_dir {cell} (grid : list (list cell)) (m : Movable) :
  dir (snd (move grid m)) = dir m.
Proof.
  destruct (dir m) as [k xs|d|f] eqn:E.
  - rewrite move_not_facing by congruence. exact E.
  - rewrite (move_facing grid E). unfold move_result.
    destruct ((0 <=? _) && (_ <? len grid)); [|exact E].
    destruct (getitem grid _) as [row|e]; [|exact E].
    destruct ((0 <=? _) && (_ <? len row)); exact E.
  - rewrite move_not_facing by congruence. exact E.
Qed.

Lemma turn_preserves_pos (t : rotation) (m : Movable) :
  pos (snd (turn t m)) = pos m.
Proof.
  destruct t as [o|g].
  - rewrite turn_plain. reflexivity.
  - rewrite turn_with_get_new_dir. destruct (g (dir m)); reflexivity.
Qed.

Lemma reset_eq (m : Movable) :
  reset m = (Ok tt, {| start_pos := start_pos m; start_dir := start_dir m;
                       pos := start_pos m; dir := start_dir m |}).
Proof. reflexivity. Qed.

(** C6: every call (turn, move or reset, with any argument) leaves
    start_pos and start_dir as they were, so after any sequence of calls
    they are the construction values; move never changes the direction
    field and turn never changes the position field. *)
Theorem frame_conditions (cell : Type) (c : method_call cell)
  (cs : list (method_call cell)) (grid : list (list cell)) (t : rotation)
  (m : Movable) (p : Z * Z) (d : Direction.t) :
  (start_pos (snd (exec c m)) = start_pos m /\
   start_dir (snd (exec c m)) = start_dir m) /\
  (start_pos (run cs (new p d)) = {| kind := PyTuple; cx := fst p; cy := snd p |} /\
   start_dir (run cs (new p d)) = Member d) /\
  dir (snd (move grid m)) = dir m /\
  pos (snd (turn t m)) = pos m.
Proof.
  split; [apply exec_preserves_start|].
  split; [apply (run_preserves_start cs (new p d))|].
  split; [apply move_preserves_dir|apply turn_preserves_pos].
Qed.

(** C4: after any finite sequence of calls on a Movable constructed with
    (p, d), reset returns normally and the fields are exactly those of the
    freshly constructed object: position the tuple p, direction d, and the
    remembered start values untouched.  A second reset changes nothing. *)
Theorem reset_restores_construction (cell : Type)
  (cs : list (method_call cell)) (p : Z * Z) (d : Direction.t)
  (m : Movable) :
  reset (run cs (new p d)) = (Ok tt, new p d) /\
  pos (snd (reset (run cs (new p d))))
  = {| kind := PyTuple; cx := fst p; cy := snd p |} /\
  dir (snd (reset (run cs (new p d)))) = Member d /\
  fst (reset m) = Ok tt /\
  snd (reset (snd (reset m))) = snd (reset m).
Proof.
  assert (H : reset (run cs (new p d)) = (Ok tt, new p d)).
  { rewrite reset_eq.
    destruct (run_preserves_start cs (new p d)) as [-> ->]. reflexivity. }
  rewrite H. repeat split.
Qed.

(** With the arguments the module offers for turn, the direction field
    holds a member of Direction throughout. *)
Lemma direction_stays_member {cell} (cs : list (method_call cell))
  (m : Movable) :
  (exists d, faces m d) -> (exists d0, start_dir m = Member d0) ->
  Forall (fun c => forall t, c = call_turn t -> offered t) cs ->
  exists d, faces (run cs m) d.
Proof.
  revert m. induction cs as [|c cs IH]; intros m Hd Hs Hall; simpl.
  - exact Hd.
  - inversion Hall as [|c' cs' Hc Hcs]; subst.
    apply IH; [| |exact Hcs].
    + destruct c as [t|grid|]; simpl.
      * destruct (Hc t eq_refl) as [-> | ->]; rewrite turn_plain; exact Hd.
      * unfold faces. rewrite move_preserves_dir. exact Hd.
      * destruct Hs as [d0 Hd0]. exists d0. exact Hd0.
    + destruct (exec_preserves_start c m) as [_ ->]. exact Hs.
Qed.

(** ** Player *)

Lemma resolve_inherited (c : class) (f : method_name) :
  f <> name_init -> resolve c f = Some class_Movable.
Proof. destruct c, f; intros H; try reflexivity; now destruct H. Qed.

Lemma invoke_runs_Movable_body {cell} (c : method_call cell) (o : instance) :
  invoke c o
  = (fst (exec c (fields o)),
     {| class_of := class_of o; fields := snd (exec c (fields o)) |}).
Proof.
  unfold invoke. rewrite resolve_inherited; [reflexivity|].
  destruct c; discriminate.
Qed.

Lemma invoke_all_runs_Movable_bodies {cell} (cs : list (method_call cell))
  (o : instance) :
  fst (invoke_all cs o) = outcomes cs (fields o) /\
  fields (snd (invoke_all cs o)) = run cs (fields o) /\
  class_of (snd (invoke_all cs o)) = class_of o.
Proof.
  revert o. induction cs as [|c cs IH]; intros o; simpl.
  - repeat split.
  - rewrite invoke_runs_Movable_body. simpl.
    destruct (IH {| class_of := class_of o;
                    fields := snd (exec c (fields o)) |}) as (H1 & H2 & H3).
    simpl in *. rewrite H1, H2, H3. repeat split.
Qed.

(** C8: a Player and a Movable constructed with the same arguments start
    with the same fields, and every sequence of turn, move and reset calls
    gives the same outcomes call by call and the same fields at the end;
    the Player stays a Player. *)
Theorem Player_behaves_as_Movable (cell : Type)
  (cs : list (method_call cell)) (p : Z * Z) (d : Direction.t) :
  fields (construct class_Player p d) = fields (construct class_Movable p d) /\
  fst (invoke_all cs (construct class_Player p d))
  = fst (invoke_all cs (construct class_Movable p d)) /\
  fields (snd (invoke_all cs (construct class_Player p d)))
  = fields (snd (invoke_all cs (construct class_Movable p d))) /\
  class_of (snd (invoke_all cs (construct class_Player p d))) = class_Player.
Proof.
  destruct (invoke_all_runs_Movable_bodies cs (construct class_Player p d))
    as (H1 & H2 & H3).
  destruct (invoke_all_runs_Movable_bodies cs (construct class_Movable p d))
    as (H4 & H5 & _).
  rewrite H1, H2, H3, H4, H5. repeat split.
Qed.

(** * Further properties of the code *)

(** ** One call of move *)

Lemma move_result_cases {cell} (grid : list (list cell)) (m : Movable)
  (c : coords) :
  (move_result grid m c = (Ok tt, set_pos c m) /\ in_bounds grid c) \/
  (move_result grid m c = (Ok tt, m) /\ ~ in_bounds grid c).
Proof.
  unfold move_result.
  destruct ((0 <=? cy c) && (cy c <? len grid)) eqn:Ey.
  - apply andb_true_iff in Ey. destruct Ey as [E1 E2].
    apply Z.leb_le in E1. apply Z.ltb_lt in E2.
    destruct (getitem_in_range grid (conj E1 E2)) as (row & -> & Hrow).
    destruct ((0 <=? cx c) && (cx c <? len row)) eqn:Ex.
    + apply andb_true_iff in Ex. destruct Ex as [E3 E4].
      apply Z.leb_le in E3. apply Z.ltb_lt in E4.
      left. split; [reflexivity|]. split; [lia|].
      exists row. split; [exact Hrow|lia].
    + right. split; [reflexivity|].
      intros [_ (row' & Hrow' & Hx)]. rewrite Hrow in Hrow'.
      injection Hrow' as <-.
      apply andb_false_iff in Ex.
      destruct Ex as [E|E]; [apply Z.leb_gt in E|apply Z.ltb_ge in E]; lia.
  - right. split; [reflexivity|]. intros [Hy _].
    apply andb_false_iff in Ey.
    destruct Ey as [E|E]; [apply Z.leb_gt in E|apply Z.ltb_ge in E]; lia.
Qed.

(** X1: one call of move, on any grid, either leaves the position as it
    was or takes it to a cell at city-block distance exactly 1, changing one
    coordinate only: there is no diagonal step and no jump. *)
Theorem move_is_unit_step (cell : Type) (grid : list (list cell))
  (m : Movable) :
  pos (snd (move grid m)) = pos m \/
  (manhattan (pos (snd (move grid m))) (pos m) = 1 /\
   (cx (pos (snd (move grid m))) = cx (pos m) \/
    cy (pos (snd (move grid m))) = cy (pos m))).
Proof.
  destruct (dir m) as [k xs|d|f] eqn:E.
  - rewrite move_not_facing by congruence. now left.
  - rewrite (move_facing grid E).
    destruct (move_result_cases grid m (candidate m d)) as [[-> _]|[-> _]];
      [|now left].
    right. unfold manhattan, candidate. simpl.
    destruct d; simpl; split; try lia.
  - rewrite move_not_facing by congruence. now left.
Qed.

(** X2: move is atomic on error: whenever the call raises, on whatever
    grid and with whatever direction field, every field is as it was before
    the call (the only assignment is the last statement). *)
Theorem move_atomic_on_error (cell : Type) (grid : list (list cell))
  (m m' : Movable) (e : exn) :
  move grid m = (Err e, m') ->
  start_pos m' = start_pos m /\ start_dir m' = start_dir m /\
  pos m' = pos m /\ dir m' = dir m.
Proof.
  intros H.
  destruct (dir m) as [k xs|d|f] eqn:E.
  - rewrite move_not_facing in H by congruence.
    injection H as _ Hm. subst m'. repeat split; auto.
  - rewrite (move_facing grid E) in H.
    destruct (move_result_cases grid m (candidate m d)) as [[R _]|[R _]];
      rewrite R in H; discriminate.
  - rewrite move_not_facing in H by congruence.
    injection H as _ Hm. subst m'. repeat split; auto.
Qed.

Lemma move_atomic_on_error_witness :
  fst (move [[1; 2]; [3; 4]]
         (set_dir (Ints PyTuple [0; -1]) (new (1, 1) Direction.UP)))
  = Err AttributeError /\
  pos (set_dir (Ints PyTuple [0; -1]) (new (1, 1) Direction.UP))
  = {| kind := PyTuple; cx := 1; cy := 1 |}.
Proof.
  split; [reflexivity|].
  exact (proj1 (proj2 (proj2
    (@move_atomic_on_error Z [[1; 2]; [3; 4]]
       (set_dir (Ints PyTuple [0; -1]) (new (1, 1) Direction.UP))
       (set_dir (Ints PyTuple [0; -1]) (new (1, 1) Direction.UP))
       AttributeError eq_refl)))).
Defined.

(** ** Staying on the grid *)

Lemma move_keeps_in_bounds {cell} (grid : list (list cell)) (m : Movable) :
  in_bounds grid (pos m) -> in_bounds grid (pos (snd (move grid m))).
Proof.
  intros H.
  destruct (dir m) as [k xs|d|f] eqn:E.
  - rewrite move_not_facing by congruence. exact H.
  - rewrite (move_facing grid E).
    destruct (move_result_cases grid m (candidate m d)) as [[-> Hc]|[-> _]];
      [exact Hc|exact H].
  - rewrite move_not_facing by congruence. exact H.
Qed.

Lemma run_keeps_in_bounds {cell} (g : list (list cell))
  (cs : list (method_call cell)) (m : Movable) :
  moves_on g cs ->
  in_bounds g (start_pos m) -> in_bounds g (pos m) ->
  in_bounds g (pos (run cs m)).
Proof.
  revert m. induction cs as [|c cs IH]; intros m Hall Hs Hp; simpl.
  - exact Hp.
  - inversion Hall as [|c' cs' Hc Hcs]; subst.
    apply IH; [exact Hcs| |].
    + destruct (exec_preserves_start c m) as [-> _]. exact Hs.
    + destruct c as [t|grid|]; simpl.
      * rewrite turn_preserves_pos. exact Hp.
      * rewrite (Hc grid eq_refl). now apply move_keeps_in_bounds.
      * exact Hs.
Qed.

(** X3: a Movable constructed on a cell of the grid stays on the grid: after
    any sequence of turn, move and reset calls whose moves are all given
    that grid (turns with any argument), its position is a cell of the
    grid. *)
Theorem position_stays_on_grid (cell : Type) (g : list (list cell))
  (cs : list (method_call cell)) (p : Z * Z) (d : Direction.t) :
  in_bounds g (pos (new p d)) ->
  moves_on g cs ->
  in_bounds g (pos (run cs (new p d))).
Proof.
  intros Hp Hall. apply run_keeps_in_bounds; assumption.
Qed.

Lemma position_stays_on_grid_witness :
  in_bounds [[1; 2]; [3; 4; 5]]
    (pos (run [call_move [[1; 2]; [3; 4; 5]]; call_turn (Plain Turn.LEFT);
               call_move [[1; 2]; [3; 4; 5]]; call_reset;
               call_move [[1; 2]; [3; 4; 5]]]
              (new (0, 1) Direction.RIGHT))).
Proof.
  apply (@position_stays_on_grid Z [[1; 2]; [3; 4; 5]]).
  - split; [cbn; lia|]. exists [3; 4; 5]. split; [reflexivity|cbn; lia].
  - repeat constructor; intros g' H; try discriminate;
      injection H as <-; reflexivity.
Defined.

(** ** What the offered turns amount to *)

Lemma count_moves_cons {cell} (c : method_call cell)
  (cs : list (method_call cell)) :
  count_moves (c :: cs) = (if is_move c then 1 else 0) + count_moves cs.
Proof.
  unfold count_moves, len. cbn [filter].
  destruct (is_move c); cbn [List.length]; lia.
Qed.

Lemma count_moves_nonneg {cell} (cs : list (method_call cell)) :
  0 <= count_moves cs.
Proof. apply len_nonneg. Qed.

Lemma exec_along {cell} (c : method_call cell) (d : Direction.t) (k : Z)
  (m : Movable) :
  (forall t, c = call_turn t -> offered t) ->
  0 <= k -> along d k m ->
  fst (exec c m) = expected_outcome c /\
  exists k', 0 <= k' <= k + (if is_move c then 1 else 0) /\
             along d k' (snd (exec c m)).
Proof.
  intros Hc Hk (Hd & Hs & Hx & Hy).
  destruct c as [t|grid|]; simpl.
  - destruct (Hc t eq_refl) as [-> | ->]; rewrite turn_plain; simpl;
      (split; [reflexivity|]); exists k; (split; [lia|]);
      repeat split; assumption.
  - rewrite (move_facing grid Hd).
    destruct (move_result_cases grid m (candidate m d)) as [[-> _]|[-> _]];
      simpl; (split; [reflexivity|]).
    + exists (k + 1). split; [lia|].
      repeat split; try assumption; simpl; lia.
    + exists k. split; [lia|]. repeat split; assumption.
  - split; [reflexivity|]. exists 0. split; [lia|].
    unfold along, faces. simpl. repeat split; try assumption; lia.
Qed.

Lemma run_along {cell} (cs : list (method_call cell)) (d : Direction.t)
  (k : Z) (m : Movable) :
  turns_offered cs -> 0 <= k -> along d k m ->
  outcomes cs m = map (@expected_outcome cell) cs /\
  exists k', 0 <= k' <= k + count_moves cs /\ along d k' (run cs m).
Proof.
  revert k m. induction cs as [|c cs IH]; intros k m Hall Hk Hm; simpl.
  - split; [reflexivity|]. exists k. unfold count_moves, len. simpl.
    split; [lia|exact Hm].
  - inversion Hall as [|c' cs' Hc Hcs]; subst.
    destruct (exec_along Hc Hk Hm) as (Ho & k1 & Hk1 & Hm1).
    destruct (IH k1 (snd (exec c m)) Hcs (proj1 Hk1) Hm1)
      as (Hos & k2 & Hk2 & Hm2).
    split; [now rewrite Ho, Hos|].
    exists k2. split; [|exact Hm2].
    rewrite count_moves_cons. lia.
Qed.

Lemma new_along (p : Z * Z) (d : Direction.t) : along d 0 (new p d).
Proof. unfold along, faces. simpl. repeat split; lia. Qed.

(** X4: with Turn.RIGHT and Turn.LEFT as the only arguments of turn, a
    Movable never changes direction: after any sequence of calls it faces
    the construction direction d, and its position is the construction
    position plus k times d's vector, for some k between 0 and the number
    of moves in the sequence.  It can never step sideways or back. *)
Theorem offered_turns_never_turn (cell : Type)
  (cs : list (method_call cell)) (p : Z * Z) (d : Direction.t) :
  turns_offered cs ->
  dir (run cs (new p d)) = Member d /\
  exists k, 0 <= k <= count_moves cs /\
    cx (pos (run cs (new p d))) = fst p + k * fst (Direction.value d) /\
    cy (pos (run cs (new p d))) = snd p + k * snd (Direction.value d).
Proof.
  intros Hall.
  destruct (run_along Hall (Z.le_refl 0) (new_along p d))
    as (_ & k & Hk & Hd & _ & Hx & Hy).
  destruct (run_preserves_start cs (new p d)) as [Hs _].
  rewrite Hs in Hx, Hy. simpl in Hx, Hy.
  split; [exact Hd|]. exists k. split; [lia|]. split; assumption.
Qed.

Lemma offered_turns_never_turn_witness :
  dir (run [call_turn (Plain Turn.LEFT); call_move [[1; 2; 3]];
            call_turn (Plain Turn.RIGHT); call_move [[1; 2; 3]]]
           (new (0, 0) Direction.RIGHT))
  = Member Direction.RIGHT.
Proof.
  refine (proj1 (@offered_turns_never_turn Z
            [call_turn (Plain Turn.LEFT); call_move [[1; 2; 3]];
             call_turn (Plain Turn.RIGHT); call_move [[1; 2; 3]]]
            (0, 0) Direction.RIGHT _)).
  unfold turns_offered.
  repeat (apply Forall_cons;
          [intros t H; try discriminate H; injection H as <-;
           first [left; reflexivity | right; reflexivity]|]).
  apply Forall_nil.
Defined.

(** X5: in any sequence of calls on a constructed Movable whose turns are
    given Turn.RIGHT or Turn.LEFT, every turn raises AttributeError and
    every move and reset returns normally. *)
Theorem every_offered_turn_raises (cell : Type)
  (cs : list (method_call cell)) (p : Z * Z) (d : Direction.t) :
  turns_offered cs ->
  outcomes cs (new p d) = map (@expected_outcome cell) cs.
Proof.
  intros Hall.
  exact (proj1 (run_along Hall (Z.le_refl 0) (new_along p d))).
Qed.

Lemma every_offered_turn_raises_witness :
  outcomes [call_move [[1; 2; 3]]; call_turn (Plain Turn.RIGHT);
            call_reset; call_turn (Plain Turn.LEFT)]
           (new (0, 0) Direction.RIGHT)
  = [Ok tt; Err AttributeError; Ok tt; Err AttributeError].
Proof.
  apply (@every_offered_turn_raises Z
           [call_move [[1; 2; 3]]; call_turn (Plain Turn.RIGHT);
            call_reset; call_turn (Plain Turn.LEFT)]
           (0, 0) Direction.RIGHT).
  unfold turns_offered.
  repeat (apply Forall_cons;
          [intros t H; try discriminate H; injection H as <-;
           first [left; reflexivity | right; reflexivity]|]).
  apply Forall_nil.
Defined.

(** ** reset in the middle of a sequence *)

Lemma run_app {cell} (cs cs' : list (method_call cell)) (m : Movable) :
  run (cs ++ cs') m = run cs' (run cs m).
Proof.
  revert m. induction cs as [|c cs IH]; intros m; simpl;
    [reflexivity|apply IH].
Qed.

(** X6: reset erases the history: whatever calls came before it, the calls
    after a reset leave the Movable exactly as they leave a freshly
    constructed one, with the same outcomes. *)
Theorem reset_erases_history (cell : Type)
  (before after : list (method_call cell)) (p : Z * Z) (d : Direction.t) :
  run (before ++ call_reset :: after) (new p d) = run after (new p d) /\
  outcomes after (run (before ++ [call_reset]) (new p d))
  = outcomes after (new p d).
Proof.
  assert (H : snd (reset (run before (new p d))) = new p d).
  { rewrite reset_eq.
    destruct (run_preserves_start before (new p d)) as [-> ->].
    reflexivity. }
  rewrite !run_app. cbn [run exec]. rewrite H. split; reflexivity.
Qed.

(** ** Walking to the wall of a rectangular grid *)

Lemma rectangular_in_bounds {cell} (w h : Z) (g : list (list cell))
  (c : coords) :
  rectangular w h g ->
  (in_bounds g c <-> 0 <= cx c < w /\ 0 <= cy c < h).
Proof.
  intros [Hh Hw]. rewrite Forall_forall in Hw. split.
  - intros [Hy (row & Hrow & Hx)].
    apply nth_error_In in Hrow. rewrite <- (Hw row Hrow). lia.
  - intros [Hx Hy]. split; [lia|].
    assert (Hy' : 0 <= cy c < len g) by lia.
    destruct (getitem_in_range g Hy') as (row & _ & Hrow).
    exists row. split; [exact Hrow|].
    rewrite (Hw row (nth_error_In _ _ Hrow)). exact Hx.
Qed.

(** X7: on a rectangular grid of width w and height h, n moves in a row by
    a Movable that stands on the grid and faces d take it n cells along d,
    stopping at the wall: each coordinate is the unbounded one clamped to
    the grid. *)
Theorem repeated_moves_stop_at_wall (cell : Type) (w h : Z)
  (g : list (list cell)) (d : Direction.t) (n : nat) (m : Movable) :
  rectangular w h g -> faces m d -> in_bounds g (pos m) ->
  cx (pos (run (repeat (call_move g) n) m))
  = clamp 0 (w - 1) (cx (pos m) + Z.of_nat n * fst (Direction.value d)) /\
  cy (pos (run (repeat (call_move g) n) m))
  = clamp 0 (h - 1) (cy (pos m) + Z.of_nat n * snd (Direction.value d)).
Proof.
  intros Hr. revert m. induction n as [|n IH]; intros m Hd Hp.
  - apply (rectangular_in_bounds (pos m) Hr) in Hp.
    cbn [repeat run]. unfold clamp. destruct d; cbn [Direction.value fst snd]; lia.
  - cbn [repeat run exec].
    assert (Hd1 : faces (snd (move g m)) d)
      by (unfold faces; rewrite move_preserves_dir; exact Hd).
    pose proof (move_keeps_in_bounds m Hp) as Hp1.
    destruct (IH _ Hd1 Hp1) as [Hx Hy]. rewrite Hx, Hy. clear Hx Hy IH.
    apply (rectangular_in_bounds (pos m) Hr) in Hp.
    rewrite (move_facing g Hd).
    rewrite Nat2Z.inj_succ.
    destruct (move_result_cases g m (candidate m d)) as [[-> Hc]|[-> Hc]].
    + cbn [snd pos set_pos candidate cx cy]. split; f_equal; lia.
    + rewrite (rectangular_in_bounds (candidate m d) Hr) in Hc.
      cbn [snd]. unfold candidate in Hc. cbn [cx cy] in Hc.
      unfold clamp.
      destruct d; cbn [Direction.value fst snd] in *; lia.
Qed.

Lemma repeated_moves_stop_at_wall_witness :
  cx (pos (run (repeat (call_move [[1; 2; 3]; [4; 5; 6]]) 5%nat)
               (new (1, 0) Direction.RIGHT))) = 2.
Proof.
  refine (proj1 (@repeated_moves_stop_at_wall Z 3 2 [[1; 2; 3]; [4; 5; 6]]
                   Direction.RIGHT 5%nat (new (1, 0) Direction.RIGHT)
                   _ eq_refl _)).
  - split; [reflexivity|]. repeat constructor.
  - split; [cbn; lia|]. exists [1; 2; 3]. split; [reflexivity|cbn; lia].
Defined.

(** ** The two lambdas of Turn as functions *)

(** X8: whatever sequence of two ints it is given, each lambda applied
    twice returns the two ints (as a tuple), and so does each lambda applied
    four times: the lambdas are their own inverses. *)
Theorem lambda_twice_is_identity (f : lambda) (k : seq_kind) (a b : Z) :
  rbind (call f (Ints k [a; b])) (call f) = Ok (Ints PyTuple [a; b]) /\
  rbind (rbind (rbind (call f (Ints k [a; b])) (call f)) (call f)) (call f)
  = Ok (Ints PyTuple [a; b]).
Proof.
  rewrite call_on_pair.
  destruct f; cbn [rbind]; rewrite !call_on_pair; cbn [rbind];
    rewrite ?call_on_pair; cbn [rbind]; rewrite ?call_on_pair;
    rewrite ?Z.opp_involutive; split; reflexivity.
Qed.

(** X9: the lambdas map the vector of every direction to the vector of a
    direction perpendicular to it: their results stay within the four
    direction vectors and are never the vector itself or its opposite. *)
Theorem lambda_gives_perpendicular_direction (f : lambda)
  (d : Direction.t) :
  exists d' : Direction.t,
    call f (pair_obj PyTuple (Direction.value d))
    = Ok (pair_obj PyTuple (Direction.value d')) /\
    dot (Direction.value d) (Direction.value d') = 0.
Proof.
  destruct f, d;
    first [ exists Direction.UP; split; reflexivity
          | exists Direction.DOWN; split; reflexivity
          | exists Direction.LEFT; split; reflexivity
          | exists Direction.RIGHT; split; reflexivity ].
Qed.

(** X10: what the lambdas do with their argument: a Direction member or a
    function is not subscriptable (TypeError); a tuple or list of fewer
    than two ints raises IndexError; of a longer one the first two items
    a, b are used and the rest ignored, and the result is the tuple
    (-b, -a) for RIGHT and (b, a) for LEFT, whatever the kind of the
    argument. *)
Theorem lambda_argument_behaviour (f : lambda) :
  (forall d, call f (Member d) = Err TypeError) /\
  (forall g, call f (Function g) = Err TypeError) /\
  (forall k xs, (List.length xs < 2)%nat ->
     call f (Ints k xs) = Err IndexError) /\
  (forall k a b rest,
     call f (Ints k (a :: b :: rest))
     = Ok (match f with
           | lambda_RIGHT => Ints PyTuple [- b; - a]
           | lambda_LEFT => Ints PyTuple [b; a]
           end)).
Proof.
  split; [|split; [|split]].
  - intros d. destruct f; reflexivity.
  - intros g. destruct f; reflexivity.
  - intros k xs Hlen.
    destruct xs as [|a [|b rest]]; [| |simpl in Hlen; lia];
      destruct f; reflexivity.
  - intros k a b rest.
    assert (H1 : getitem (a :: b :: rest) 1 = Ok b).
    { assert (Hr : 0 <= 1 < len (a :: b :: rest))
        by (unfold len; cbn [List.length]; lia).
      destruct (getitem_in_range (a :: b :: rest) Hr) as (v & -> & Hv).
      simpl in Hv. congruence. }
    assert (H0 : getitem (a :: b :: rest) 0 = Ok a).
    { assert (Hr : 0 <= 0 < len (a :: b :: rest))
        by (unfold len; cbn [List.length]; lia).
      destruct (getitem_in_range (a :: b :: rest) Hr) as (v & -> & Hv).
      simpl in Hv. congruence. }
    destruct f; unfold call; cbn [subscript]; rewrite H1, H0; reflexivity.
Qed.

(** X11: a lambda-driven turn breaks move: whenever turn with one of the
    lambdas as get_new_dir returns normally, the direction field holds a
    plain tuple afterwards, so the next move raises AttributeError (a tuple
    has no value attribute) and changes no field. *)
Theorem lambda_turn_excludes_move (cell : Type) (f : lambda)
  (grid : list (list cell)) (m : Movable) :
  fst (turn (WithGetNewDir (call f)) m) = Ok tt ->
  (exists a b,
     dir (snd (turn (WithGetNewDir (call f)) m)) = Ints PyTuple [a; b]) /\
  move grid (snd (turn (WithGetNewDir (call f)) m))
  = (Err AttributeError, snd (turn (WithGetNewDir (call f)) m)).
Proof.
  rewrite turn_with_get_new_dir.
  destruct (call f (dir m)) as [v|e] eqn:Ec; [|discriminate].
  intros _.
  assert (Hv : exists a b, v = Ints PyTuple [a; b]).
  { unfold call in Ec. destruct f;
      destruct (subscript (dir m) 1) as [a|]; try discriminate Ec;
      destruct (subscript (dir m) 0) as [b|]; try discriminate Ec;
      cbn [rbind] in Ec; injection Ec as <-; eauto. }
  destruct Hv as (a & b & ->). cbn [snd].
  split; [exists a, b; reflexivity|].
  apply move_not_facing. cbn [dir set_dir]. congruence.
Qed.

Lemma lambda_turn_excludes_move_witness :
  fst (move [[1; 2; 3]]
         (snd (turn (WithGetNewDir (call lambda_RIGHT))
                 (set_dir (Ints PyTuple [1; 0])
                    (new (0, 0) Direction.RIGHT)))))
  = Err AttributeError.
Proof.
  exact (f_equal fst (proj2
    (@lambda_turn_excludes_move Z lambda_RIGHT [[1; 2; 3]]
       (set_dir (Ints PyTuple [1; 0]) (new (0, 0) Direction.RIGHT))
       eq_refl))).
Defined.

(** ** A blocked Movable *)

(** X12: once the cell ahead is off the grid, the Movable is stuck: no
    sequence of moves on that grid and turns with Turn.RIGHT or Turn.LEFT
    (a sequence without reset) changes any of its fields. *)
Theorem blocked_stays_blocked (cell : Type) (g : list (list cell))
  (cs : list (method_call cell)) (d : Direction.t) (m : Movable) :
  faces m d -> ~ in_bounds g (candidate m d) ->
  moves_on g cs -> turns_offered cs -> no_reset cs ->
  run cs m = m.
Proof.
  intros Hd Hb Hm Ht Hr.
  induction cs as [|c cs IH]; [reflexivity|].
  inversion Hm as [|c1 cs1 Hm1 Hms]; subst.
  inversion Ht as [|c2 cs2 Ht1 Hts]; subst.
  inversion Hr as [|c3 cs3 Hr1 Hrs]; subst.
  cbn [run].
  assert (Hstep : snd (exec c m) = m).
  { destruct c as [t|grid|]; cbn [exec].
    - destruct (Ht1 t eq_refl) as [-> | ->]; rewrite turn_plain; reflexivity.
    - rewrite (Hm1 grid eq_refl), (move_facing g Hd).
      rewrite (move_result_out_of_bounds m Hb). reflexivity.
    - now destruct Hr1. }
  rewrite Hstep. exact (IH Hms Hts Hrs).
Qed.

Lemma blocked_stays_blocked_witness :
  run [call_move [[1; 2; 3]]; call_turn (Plain Turn.RIGHT);
       call_move [[1; 2; 3]]]
      (new (2, 0) Direction.RIGHT)
  = new (2, 0) Direction.RIGHT.
Proof.
  apply (@blocked_stays_blocked Z [[1; 2; 3]] _ Direction.RIGHT).
  - reflexivity.
  - intros [_ (row & Hrow & Hx)]. cbn in Hrow. injection Hrow as <-.
    cbn in Hx. lia.
  - repeat (apply Forall_cons;
            [intros g' H; try discriminate H; injection H as <-;
             reflexivity|]).
    apply Forall_nil.
  - unfold turns_offered.
    repeat (apply Forall_cons;
            [intros t H; try discriminate H; injection H as <-;
             first [left; reflexivity | right; reflexivity]|]).
    apply Forall_nil.
  - repeat (apply Forall_cons; [discriminate|]). apply Forall_nil.
Defined.
